(** * sql-strings: the [SQL] statement builder

    Source: function [SQL] and its inner function [append] (lib/SQL.js of
    the package; lines 186-217 of src/scripts/badges.mjs here).

    A shallow embedding of the tagged-template builder [SQL] and of the
    function object [append] it returns, together with the properties of
    its two placeholder renderings ([sql] with [?], [text] with [$n]),
    of its bound [values], of its finalisation shapes and of its iterator.

    JavaScript strings are modelled by [string], array lengths and
    indices by [nat], and the objects a program can reach by a store
    indexed by handles. *)

From Stdlib Require Import Ascii Decimal DecimalString DecimalNat.
From stdpp Require Import base numbers option list strings.

(** ** JavaScript data *)

(** Values bound to a statement.  The builder stores them and hands them
    to the driver; it never looks inside. *)
Inductive value :=
| VUndefined
| VNull
| VBool (b : bool)
| VNumber (n : Z)
| VString (s : string).

(** The first argument of [SQL] and of [append], with the type the JSDoc
    gives it ([string[] | string]), plus the two finalisation arguments tested
    by the first [if]: [undefined] (no argument) and the symbol
    [SEQUELIZE_USE_BIND]. *)
Inductive template :=
| Undefined
| SEQUELIZE_USE_BIND
| RawString (s : string)
| Fragments (parts : list string).

(** [String(n)] for an array length or index [n]: plain decimal digits. *)
Definition number_to_string (n : nat) : string :=
  NilEmpty.string_of_uint (Nat.to_uint n).

(** [Array.prototype.reduce] called with a callback and no initial value:
    the accumulator starts as element 0, the callback first runs at index 1,
    and an empty array is a [TypeError] (here [None]). *)
Fixpoint reduce_from {A} (callback : A → A → nat → A)
    (acc : A) (rest : list A) (i : nat) : A :=
  match rest with
  | [] => acc
  | part :: rest' => reduce_from callback (callback acc part i) rest' (S i)
  end.

Definition reduce {A} (callback : A → A → nat → A) (arr : list A) : option A :=
  match arr with
  | [] => None
  | first :: rest => Some (reduce_from callback first rest 1)
  end.

(** [Array.prototype.join] on an array of strings. *)
Fixpoint join (sep : string) (arr : list string) : string :=
  match arr with
  | [] => ""
  | [part] => part
  | part :: rest => part +:+ sep +:+ join sep rest
  end.

(** ** The store *)

(** A handle is the identity of one [append] function object. *)
Abbreviation handle := nat (only parsing).

(** The own properties of an [append] function object.  The array bound to
    [values] is created once by [SQL] and only ever pushed to, so it is
    kept inside the cell of the function object that owns it. *)
Record SQLString := mkSQLString {
  append_method : handle;   (* the [append] property *)
  text : string;
  sql : string;
  values : list value;
}.

Abbreviation heap := (list SQLString) (only parsing).

(** A reference to the array held in the [values] property of a handle. *)
Inductive array_ref := ValuesOf (owner : handle).

Definition read_array (σ : heap) (r : array_ref) : option (list value) :=
  match r with ValuesOf owner => values <$> σ !! owner end.

(** What a call evaluates to. *)
Inductive js_result :=
| RHandle (h : handle)
    (* [return append] *)
| RParams (r_sql r_text r_query : string) (r_values : array_ref)
    (* [{ sql, text, query, values }] *)
| RBind (r_query : string) (r_bind : array_ref).
    (* [{ query, bind }] *)

Inductive error := TypeError.

Inductive completion :=
| Return (r : js_result)
| Throw (e : error).

(** ** [append] *)

(** The callback given to [reduce]; [len] is [append.values.length], read
    while the fold runs, that is before [push]. *)
Definition text_callback (len : nat) (acc part : string) (i : nat) : string :=
  acc +:+ "$" +:+ number_to_string (len + i) +:+ part.

(** The three statements after the normalisation of [template] to an
    array.  [text +=] reads the old text and then runs [reduce]; when
    [reduce] throws, nothing has been assigned. *)
Definition append_parts (self : handle) (parts : list string)
    (vals : list value) (this : SQLString) : completion * SQLString :=
  match reduce (text_callback (length (values this))) parts with
  | None => (Throw TypeError, this)
  | Some rendered =>
      (Return (RHandle self),
       {| append_method := append_method this;
          text := text this +:+ rendered;
          sql := sql this +:+ join "?" parts;
          values := values this ++ vals |})
  end.

(** The body of [append], run on the cell [this] of the function object
    [self] the closure refers to. *)
Definition append_body (self : handle) (tmpl : template)
    (vals : list value) (this : SQLString) : completion * SQLString :=
  match tmpl with
  | Undefined =>
      (Return (RParams (sql this) (text this) (sql this) (ValuesOf self)), this)
  | SEQUELIZE_USE_BIND =>
      (Return (RBind (text this) (ValuesOf self)), this)
  | RawString s => append_parts self [s] vals this
  | Fragments parts => append_parts self parts vals this
  end.

(** Calling the function object [self]: [self(template, ...values)].
    [None] only when [self] is not a handle of the store. *)
Definition append (self : handle) (tmpl : template) (vals : list value)
    (σ : heap) : option (completion * heap) :=
  this ← σ !! self;
  let '(c, this') := append_body self tmpl vals this in
  Some (c, <[self := this']> σ).

(** The method call [h.append(template, ...values)]: the property is read
    from [h] and the function object found there is called. *)
Definition call_append_method (h : handle) (tmpl : template)
    (vals : list value) (σ : heap) : option (completion * heap) :=
  this ← σ !! h;
  append (append_method this) tmpl vals σ.

(** ** [SQL] *)

(** [SQL(template, ...values)] creates a function object with empty
    renderings and a fresh array, runs [append] on it once and returns it
    whatever that call returned; an exception of that call propagates. *)
Definition SQL (tmpl : template) (vals : list value) (σ : heap)
    : completion * heap :=
  let self := length σ in
  let fresh :=
    {| append_method := self; text := ""; sql := ""; values := [] |} in
  match append_body self tmpl vals fresh with
  | (Throw e, this') => (Throw e, σ ++ [this'])
  | (Return _, this') => (Return (RHandle self), σ ++ [this'])
  end.

(** ** The iterator *)

(** The generator [function* () { yield this.sql; yield* this.values; }]:
    not started, inside [yield*] with the array iterator at index [i],
    or finished. *)
Inductive generator :=
| GenStart (this : handle)
| GenValues (arr : array_ref) (i : nat)
| GenDone.

(** [h[Symbol.iterator]()]. *)
Definition iterator (h : handle) : generator := GenStart h.

(** [g.next()]: [Some v] for [{ value: v, done: false }], [None] for
    [{ done: true }].  The array iterator reads the live array. *)
Definition next (g : generator) (σ : heap)
    : option (option value * generator) :=
  match g with
  | GenStart this =>
      s ← σ !! this;
      Some (Some (VString (sql s)), GenValues (ValuesOf this) 0)
  | GenValues arr i =>
      vs ← read_array σ arr;
      match vs !! i with
      | Some v => Some (Some v, GenValues arr (S i))
      | None => Some (None, GenDone)
      end
  | GenDone => Some (None, GenDone)
  end.

(** Draining a generator, as the spread [[...h]] does, with a bound on
    the number of [next] calls. *)
Fixpoint drain (fuel : nat) (g : generator) (σ : heap)
    : option (list value) :=
  match fuel with
  | 0 => None
  | S fuel' =>
      match next g σ with
      | None => None
      | Some (None, _) => Some []
      | Some (Some v, g') => cons v <$> drain fuel' g' σ
      end
  end.

(** ** The renderings in the words of the specification *)

Definition concat_strings (l : list string) : string :=
  foldr String.append "" l.

(** What follows the fragment at position [i] of [n] fragments in the
    [?] rendering: a [?], except after the final fragment. *)
Definition sql_mark (n i : nat) : string :=
  if decide (S i < n) then "?" else "".

(** The same for the [$n] rendering, [count] being the number of values
    bound before the call. *)
Definition text_mark (count n i : nat) : string :=
  if decide (S i < n) then "$" +:+ number_to_string (count + 1 + i) else "".

Definition sql_extension (parts : list string) : string :=
  concat_strings (imap (λ i part, part +:+ sql_mark (length parts) i) parts).

Definition text_extension (count : nat) (parts : list string) : string :=
  concat_strings
    (imap (λ i part, part +:+ text_mark count (length parts) i) parts).

(** ** Stores built by [SQL], and growth *)

(** [append.append = append]: the [append] property of every function
    object is the function object itself. *)
Definition heap_ok (σ : heap) : Prop :=
  ∀ h this, σ !! h = Some this → append_method this = h.

(** [s1] is the beginning of [s2], as [prefix_of] says it of lists. *)
Definition string_prefix (s1 s2 : string) : Prop :=
  ∃ k, s2 = s1 +:+ k.

(** The arguments on which a call appends: a raw string, or an array with
    at least one fragment. *)
Definition appends_to (tmpl : template) : Prop :=
  match tmpl with
  | RawString _ | Fragments (_ :: _) => True
  | _ => False
  end.

(** ** Sequences of calls *)

(** The arguments of one call of the interleaved form. *)
Definition batch : Type := list string * list value.

(** [n] fragments interleaved with [n-1] values, as a tagged template
    passes them. *)
Definition interleaved (b : batch) : Prop :=
  length b.1 = S (length b.2).

(** Successive calls [h(parts, ...vals)] on one handle; [None] as soon
    as a call throws. *)
Fixpoint appends (h : handle) (bs : list batch) (σ : heap) : option heap :=
  match bs with
  | [] => Some σ
  | (parts, vals) :: bs' =>
      match append h (Fragments parts) vals σ with
      | Some (Return _, σ') => appends h bs' σ'
      | _ => None
      end
  end.

(** The fragments of two successive calls carried by one call: the last
    fragment of the first call and the first fragment of the second are
    concatenated. *)
Fixpoint glue (parts1 parts2 : list string) : list string :=
  match parts1 with
  | [] => parts2
  | [last] =>
      match parts2 with
      | [] => [last]
      | first :: rest => (last +:+ first) :: rest
      end
  | part :: rest1 => part :: glue rest1 parts2
  end.

Definition combine (b1 b2 : batch) : batch :=
  (glue b1.1 b2.1, b1.2 ++ b2.2).

Definition combine_all (b : batch) (bs : list batch) : batch :=
  foldl combine b bs.

(** ** Reading placeholders back from a rendering *)

Fixpoint count_char (c : ascii) (s : string) : nat :=
  match s with
  | EmptyString => 0
  | String x s' => (if Ascii.eqb x c then 1 else 0) + count_char c s'
  end.

Definition is_digit (c : ascii) : bool :=
  (48 <=? nat_of_ascii c) && (nat_of_ascii c <=? 57).

Definition digit_value (c : ascii) : nat := nat_of_ascii c - 48.

(** A scanner for numbered placeholders, a [$] followed by the longest
    run of decimal digits: outside a placeholder, just after a [$], or
    inside the digits of the number read so far. *)
Inductive scan_state :=
| Idle
| Dollar
| Number (n : nat).

(** The placeholder that ends when the scanner leaves state [q]. *)
Definition flush (q : scan_state) : list nat :=
  match q with
  | Number n => [n]
  | _ => []
  end.

Definition scan_step (q : scan_state) (c : ascii) : list nat * scan_state :=
  if Ascii.eqb c "$" then (flush q, Dollar)
  else if is_digit c then
    match q with
    | Idle => ([], Idle)
    | Dollar => ([], Number (digit_value c))
    | Number n => ([], Number (10 * n + digit_value c))
    end
  else (flush q, Idle).

Fixpoint scan (q : scan_state) (s : string) : list nat * scan_state :=
  match s with
  | EmptyString => ([], q)
  | String c s' =>
      let '(out, q') := scan_step q c in
      let '(out', q'') := scan q' s' in
      (out ++ out', q'')
  end.

(** The numbers of the placeholders of a rendering, from left to right. *)
Definition placeholders (s : string) : list nat :=
  let '(out, q) := scan Idle s in out ++ flush q.

(** A fragment that cannot be taken for a placeholder or for a part of
    one: no [?], no [$], and no digit in front (it would continue the
    number of the placeholder before it). *)
Definition plain (f : string) : bool :=
  (count_char "?" f =? 0) && (count_char "$" f =? 0) &&
  match f with
  | EmptyString => true
  | String c _ => negb (is_digit c)
  end.

(** A fragment begins with a decimal digit. *)
Definition leading_digit (f : string) : bool :=
  match f with
  | EmptyString => false
  | String c _ => is_digit c
  end.

(** A fragment that can follow a placeholder without disturbing the
    numbering: it holds no [$] followed by a digit, and it does not begin
    with a digit, which would continue the number before it. *)
Definition quiet (f : string) : Prop :=
  placeholders f = [] ∧ leading_digit f = false.

(** The same for the fragments of a whole statement; the first one
    follows no placeholder and may begin with a digit. *)
Definition fragments_quiet (parts : list string) : Prop :=
  match parts with
  | [] => True
  | first :: rest => placeholders first = [] ∧ Forall quiet rest
  end.

(** The statement holds what one call with the batch [b] builds. *)
Definition carries (b : batch) (this : SQLString) : Prop :=
  interleaved b ∧
  sql this = sql_extension b.1 ∧
  text this = text_extension 0 b.1 ∧
  values this = b.2.

(** The two placeholder invariants of a statement. *)
Definition placeholders_agree (this : SQLString) : Prop :=
  count_char "?" (sql this) = length (values this) ∧
  placeholders (text this) = seq 1 (length (values this)).

(** ** Auxiliary definitions *)

(** What [reduce] adds after the first fragment, [n] being the number of
    the next placeholder. *)
Fixpoint text_tail (n : nat) (rest : list string) : string :=
  match rest with
  | [] => ""
  | part :: rest' =>
      "$" +:+ number_to_string n +:+ part +:+ text_tail (S n) rest'
  end.

(** What [join] adds after the first fragment. *)
Fixpoint sql_tail (rest : list string) : string :=
  match rest with
  | [] => ""
  | part :: rest' => "?" +:+ part +:+ sql_tail rest'
  end.

(** The placeholders read so far, the one being read included. *)
Definition seen (r : list nat * scan_state) : list nat :=
  r.1 ++ flush r.2.

(** ** Stores a program can build *)

(** The stores reached from the empty one by calls of [SQL], calls of a
    handle and calls of its [append] method. *)
Inductive built : heap → Prop :=
| built_empty : built []
| built_SQL σ tmpl vals :
    built σ → built (SQL tmpl vals σ).2
| built_call σ h tmpl vals c σ' :
    built σ → append h tmpl vals σ = Some (c, σ') → built σ'
| built_method σ h tmpl vals c σ' :
    built σ → call_append_method h tmpl vals σ = Some (c, σ') → built σ'.

(** The two renderings come from one list of fragments, one more than
    there are bound values: [sql] puts [?] between them, [text] puts
    [$1], [$2], ... between them. *)
Definition in_sync (this : SQLString) : Prop :=
  ∃ parts,
    length parts = S (length (values this)) ∧
    sql this = sql_extension parts ∧
    text this = text_extension 0 parts.

(** Two calls with the same fragments and the same number of values. *)
Definition same_shape (b b' : batch) : Prop :=
  b.1 = b'.1 ∧ length b.2 = length b'.2.

(** Two statements with the same renderings and the same number of bound
    values. *)
Definition same_rendering (this this' : SQLString) : Prop :=
  sql this = sql this' ∧ text this = text this' ∧
  length (values this) = length (values this').

(** ** The coverage badge of scripts/badges.mjs *)

(** [percentage] is a result of [Math.round]: an integer, [NaN] when a
    figure of the coverage line does not parse, or an infinity. *)
Inductive rounded :=
| NaN
| Finite (z : Z)
| PosInfinity
| NegInfinity.

(** [percentage < k] for an integer literal [k]; a comparison with [NaN]
    is false. *)
Definition less_than (percentage : rounded) (k : Z) : bool :=
  match percentage with
  | NaN => false
  | Finite z => (z <? k)%Z
  | PosInfinity => false
  | NegInfinity => true
  end.

(** [let color = 'gray'] followed by the chain of [if]s that assigns it. *)
Definition color (percentage : rounded) : string :=
  let color := "gray" in
  if less_than percentage 50 then "#B12B1D"
  else if less_than percentage 70 then "#B1671E"
  else if less_than percentage 80 then "#B19719"
  else if less_than percentage 90 then "#7BB11B"
  else "#16B13D".

(** * Properties *)

(** ** Strings *)

Lemma append_nil_l (s : string) : "" +:+ s = s.
Proof. reflexivity. Qed.

Lemma append_cons_l (c : ascii) (s t : string) :
  String c s +:+ t = String c (s +:+ t).
Proof. reflexivity. Qed.

Lemma append_empty_r (s : string) : s +:+ "" = s.
Proof.
  induction s as [|c s IH]; [done|]. by rewrite append_cons_l, IH.
Qed.

Lemma append_assoc (a b c : string) : (a +:+ b) +:+ c = a +:+ (b +:+ c).
Proof.
  induction a as [|x a IH]; [done|]. by rewrite !append_cons_l, IH.
Qed.

(** ** [reduce] and [join] unfolded *)

Lemma reduce_from_tail len acc rest i :
  reduce_from (text_callback len) acc rest i =
  acc +:+ text_tail (len + i) rest.
Proof.
  revert acc i. induction rest as [|part rest IH]; intros acc i; simpl.
  - by rewrite append_empty_r.
  - rewrite IH. unfold text_callback. rewrite !append_assoc.
    by replace (len + S i) with (S (len + i)) by lia.
Qed.

Lemma reduce_cons len first rest :
  reduce (text_callback len) (first :: rest) =
  Some (first +:+ text_tail (len + 1) rest).
Proof. simpl. by rewrite reduce_from_tail. Qed.

Lemma join_cons first rest : join "?" (first :: rest) = first +:+ sql_tail rest.
Proof.
  revert first. induction rest as [|part rest IH]; intros first.
  - simpl. by rewrite append_empty_r.
  - change (join "?" (first :: part :: rest))
      with (first +:+ "?" +:+ join "?" (part :: rest)).
    by rewrite IH.
Qed.

(** The position-wise renderings of the specification have the same
    head-and-tail shape. *)
Lemma text_extension_shift count n j part rest :
  n = j + S (length rest) →
  concat_strings
    (imap (λ i p, p +:+ text_mark count n (j + i)) (part :: rest)) =
  part +:+ text_tail (count + S j) rest.
Proof.
  revert part j. induction rest as [|q rest IH]; intros part j ->.
  - simpl. unfold text_mark. rewrite decide_False by lia.
    by rewrite !append_empty_r.
  - rewrite imap_cons.
    rewrite (imap_ext _ (λ i p, p +:+ text_mark count
                                  (j + S (length (q :: rest))) (S j + i))).
    2:{ intros i p _. simpl. do 2 f_equal. lia. }
    cbn [concat_strings foldr].
    change (foldr String.append "" ?l) with (concat_strings l).
    rewrite IH by (simpl; lia).
    unfold text_mark at 1. rewrite decide_True by (simpl; lia).
    cbn [text_tail]. rewrite !append_assoc.
    replace (count + 1 + (j + 0)) with (count + S j) by lia.
    by replace (count + S (S j)) with (S (count + S j)) by lia.
Qed.

Lemma text_extension_cons count first rest :
  text_extension count (first :: rest) =
  first +:+ text_tail (count + 1) rest.
Proof.
  unfold text_extension.
  by rewrite <- (text_extension_shift count (length (first :: rest)) 0).
Qed.

Lemma sql_extension_shift n j part rest :
  n = j + S (length rest) →
  concat_strings (imap (λ i p, p +:+ sql_mark n (j + i)) (part :: rest)) =
  part +:+ sql_tail rest.
Proof.
  revert part j. induction rest as [|q rest IH]; intros part j ->.
  - simpl. unfold sql_mark. rewrite decide_False by lia.
    by rewrite !append_empty_r.
  - rewrite imap_cons.
    rewrite (imap_ext _ (λ i p, p +:+ sql_mark
                                  (j + S (length (q :: rest))) (S j + i))).
    2:{ intros i p _. simpl. do 2 f_equal. lia. }
    cbn [concat_strings foldr].
    change (foldr String.append "" ?l) with (concat_strings l).
    rewrite IH by (simpl; lia).
    unfold sql_mark at 1. rewrite decide_True by (simpl; lia).
    cbn [sql_tail]. by rewrite !append_assoc.
Qed.

Lemma sql_extension_cons first rest :
  sql_extension (first :: rest) = first +:+ sql_tail rest.
Proof.
  unfold sql_extension.
  by rewrite <- (sql_extension_shift (length (first :: rest)) 0).
Qed.

(** ** One call of [append] *)

(** A call with at least one fragment returns the handle and extends the
    three properties. *)
Lemma append_parts_cons self first rest vals this :
  append_parts self (first :: rest) vals this =
  (Return (RHandle self),
   {| append_method := append_method this;
      text :=
        text this +:+ first +:+ text_tail (length (values this) + 1) rest;
      sql := sql this +:+ first +:+ sql_tail rest;
      values := values this ++ vals |}).
Proof.
  unfold append_parts. rewrite reduce_cons.
  change (values this) with (values this).
  by rewrite join_cons.
Qed.

Lemma append_parts_nil self vals this :
  append_parts self [] vals this = (Throw TypeError, this).
Proof. reflexivity. Qed.

Lemma append_lookup self tmpl vals σ this :
  σ !! self = Some this →
  append self tmpl vals σ =
  Some ((append_body self tmpl vals this).1,
        <[self := (append_body self tmpl vals this).2]> σ).
Proof.
  intros Hthis. unfold append. rewrite Hthis. simpl.
  by destruct (append_body self tmpl vals this).
Qed.

(** C1: a call with [n] fragments and [n-1] values extends [sql] with
    every fragment followed by [?] (none after the last), extends [text]
    with every fragment followed by [$] and the number of values bound
    before the call plus one plus the position of the fragment, and
    pushes the values in order; the call returns the handle. *)
Theorem append_interleaved h parts vals σ this :
  σ !! h = Some this →
  length parts = S (length vals) →
  ∃ this',
    append h (Fragments parts) vals σ =
      Some (Return (RHandle h), <[h := this']> σ) ∧
    sql this' = sql this +:+ sql_extension parts ∧
    text this' = text this +:+ text_extension (length (values this)) parts ∧
    values this' = values this ++ vals.
Proof.
  intros Hthis Hlen. destruct parts as [|first rest]; [done|].
  rewrite (append_lookup _ _ _ _ _ Hthis). cbn [append_body].
  rewrite append_parts_cons. eexists. split; [reflexivity|].
  cbn [sql text values].
  by rewrite sql_extension_cons, text_extension_cons.
Qed.

Lemma append_interleaved_witness :
  ∃ this',
    append 0 (Fragments [" WHERE id = "; ""]) [VNumber 7]
      [mkSQLString 0 "a$1" "a?" [VNull]] =
      Some (Return (RHandle 0),
            <[0 := this']> [mkSQLString 0 "a$1" "a?" [VNull]]) ∧
    sql this' = "a?" +:+ sql_extension [" WHERE id = "; ""] ∧
    text this' = "a$1" +:+ text_extension 1 [" WHERE id = "; ""] ∧
    values this' = [VNull] ++ [VNumber 7].
Proof.
  apply (append_interleaved 0 [" WHERE id = "; ""] [VNumber 7]
           [mkSQLString 0 "a$1" "a?" [VNull]]
           (mkSQLString 0 "a$1" "a?" [VNull])); reflexivity.
Defined.

(** C3: a raw string with no further argument is concatenated as it is
    into [sql] and into [text]; nothing else is added to either, and
    [values] stays as it was. *)
Theorem append_raw_string h s σ this :
  σ !! h = Some this →
  append h (RawString s) [] σ =
  Some (Return (RHandle h),
        <[h := {| append_method := append_method this;
                  text := text this +:+ s;
                  sql := sql this +:+ s;
                  values := values this |}]> σ).
Proof.
  intros Hthis. rewrite (append_lookup _ _ _ _ _ Hthis). cbn [append_body].
  rewrite append_parts_cons. cbn.
  by rewrite !append_empty_r, app_nil_r.
Qed.

Lemma append_raw_string_witness :
  append 0 (RawString "users") [] [mkSQLString 0 "FROM " "FROM " []] =
  Some (Return (RHandle 0), [mkSQLString 0 "FROM users" "FROM users" []]).
Proof.
  apply (append_raw_string 0 "users" [mkSQLString 0 "FROM " "FROM " []]
           (mkSQLString 0 "FROM " "FROM " [])).
  reflexivity.
Defined.

(** C9: a raw string passed with further values throws nothing: the
    string goes into both renderings without any placeholder, and the
    values are pushed all the same. *)
Theorem raw_string_with_values_lenient h s vals σ this :
  σ !! h = Some this →
  append h (RawString s) vals σ =
  Some (Return (RHandle h),
        <[h := {| append_method := append_method this;
                  text := text this +:+ s;
                  sql := sql this +:+ s;
                  values := values this ++ vals |}]> σ).
Proof.
  intros Hthis. rewrite (append_lookup _ _ _ _ _ Hthis). cbn [append_body].
  rewrite append_parts_cons. cbn.
  by rewrite !append_empty_r.
Qed.

Lemma raw_string_with_values_lenient_witness :
  append 0 (RawString "users") [VNumber 1; VString "bob"]
    [mkSQLString 0 "FROM " "FROM " []] =
  Some (Return (RHandle 0),
        [mkSQLString 0 "FROM users" "FROM users" [VNumber 1; VString "bob"]]).
Proof.
  apply (raw_string_with_values_lenient 0 "users" [VNumber 1; VString "bob"]
           [mkSQLString 0 "FROM " "FROM " []]
           (mkSQLString 0 "FROM " "FROM " [])).
  reflexivity.
Defined.

(** C10: with an empty array of fragments [reduce] has no first element
    and [append] throws, leaving the statement as it was; it is the only
    argument on which [append] throws, and [SQL] throws on it too. *)
Theorem append_no_fragment_throws h tmpl vals σ this :
  σ !! h = Some this →
  append h (Fragments []) vals σ = Some (Throw TypeError, σ) ∧
  SQL (Fragments []) vals σ =
    (Throw TypeError, σ ++ [mkSQLString (length σ) "" "" []]) ∧
  ((∃ e σ', append h tmpl vals σ = Some (Throw e, σ')) ↔
   tmpl = Fragments []).
Proof.
  intros Hthis. split_and!.
  - rewrite (append_lookup _ _ _ _ _ Hthis).
    cbn [append_body]. rewrite append_parts_nil. cbn [fst snd].
    by rewrite list_insert_id.
  - reflexivity.
  - rewrite (append_lookup _ _ _ _ _ Hthis). split.
    + intros (e & σ' & Heq).
      destruct tmpl as [| |s|[|first rest]]; cbn in Heq; try done;
        rewrite append_parts_cons in Heq; done.
    + intros ->. by eexists _, _.
Qed.

Lemma append_no_fragment_throws_witness :
  append 0 (Fragments []) [VNumber 1] [mkSQLString 0 "a" "a" []] =
    Some (Throw TypeError, [mkSQLString 0 "a" "a" []]) ∧
  SQL (Fragments []) [VNumber 1] [mkSQLString 0 "a" "a" []] =
    (Throw TypeError, [mkSQLString 0 "a" "a" []; mkSQLString 1 "" "" []]) ∧
  ((∃ e σ', append 0 (RawString "b") [VNumber 1]
              [mkSQLString 0 "a" "a" []] = Some (Throw e, σ')) ↔
   RawString "b" = Fragments []).
Proof.
  apply (append_no_fragment_throws 0 (RawString "b") [VNumber 1]
           [mkSQLString 0 "a" "a" []] (mkSQLString 0 "a" "a" [])).
  reflexivity.
Defined.

(** ** Finalisation *)

(** C4: called with no argument, the handle returns the object
    [{ sql, text, query, values }]: [sql] is the [?] rendering, [query] is
    the same string, [text] is the [text] property of the handle, and
    [values] is the array of the handle, holding the bound values in the
    order they were pushed; the store is left as it was. *)
Theorem finalize_no_argument h σ this :
  σ !! h = Some this →
  append h Undefined [] σ =
    Some (Return (RParams (sql this) (text this) (sql this) (ValuesOf h)), σ) ∧
  read_array σ (ValuesOf h) = Some (values this).
Proof.
  intros Hthis. split.
  - rewrite (append_lookup _ _ _ _ _ Hthis). cbn [append_body fst snd].
    by rewrite list_insert_id.
  - unfold read_array. by rewrite Hthis.
Qed.

Lemma finalize_no_argument_witness :
  append 0 Undefined [] [mkSQLString 0 "id = $1" "id = ?" [VNumber 1]] =
    Some (Return (RParams "id = ?" "id = $1" "id = ?" (ValuesOf 0)),
          [mkSQLString 0 "id = $1" "id = ?" [VNumber 1]]) ∧
  read_array [mkSQLString 0 "id = $1" "id = ?" [VNumber 1]] (ValuesOf 0) =
    Some [VNumber 1].
Proof.
  apply (finalize_no_argument 0 [mkSQLString 0 "id = $1" "id = ?" [VNumber 1]]
           (mkSQLString 0 "id = $1" "id = ?" [VNumber 1])).
  reflexivity.
Defined.

(** C5: called with [SEQUELIZE_USE_BIND], the handle returns the object
    [{ query, bind }]: [query] is the [$n] rendering and [bind] is the
    array of bound values, the very array that the call with no argument
    returns as [values]; the store is left as it was. *)
Theorem finalize_use_bind h σ this :
  σ !! h = Some this →
  ∃ arr,
    append h SEQUELIZE_USE_BIND [] σ =
      Some (Return (RBind (text this) arr), σ) ∧
    read_array σ arr = Some (values this) ∧
    ∃ s t q, append h Undefined [] σ = Some (Return (RParams s t q arr), σ).
Proof.
  intros Hthis. exists (ValuesOf h).
  rewrite !(append_lookup _ _ _ _ _ Hthis). cbn [append_body fst snd].
  rewrite list_insert_id by done. split_and!; [done| |by eexists _, _, _].
  unfold read_array. by rewrite Hthis.
Qed.

Lemma finalize_use_bind_witness :
  ∃ arr,
    append 0 SEQUELIZE_USE_BIND []
      [mkSQLString 0 "id = $1" "id = ?" [VNumber 1]] =
      Some (Return (RBind "id = $1" arr),
            [mkSQLString 0 "id = $1" "id = ?" [VNumber 1]]) ∧
    read_array [mkSQLString 0 "id = $1" "id = ?" [VNumber 1]] arr =
      Some [VNumber 1] ∧
    ∃ s t q,
      append 0 Undefined [] [mkSQLString 0 "id = $1" "id = ?" [VNumber 1]] =
      Some (Return (RParams s t q arr),
            [mkSQLString 0 "id = $1" "id = ?" [VNumber 1]]).
Proof.
  apply (finalize_use_bind 0 [mkSQLString 0 "id = $1" "id = ?" [VNumber 1]]
           (mkSQLString 0 "id = $1" "id = ?" [VNumber 1])).
  reflexivity.
Defined.

(** The [text] of the finalised object is the [$n] rendering: as soon as
    a value is bound it differs from [sql] and [query]. *)
Example finalize_text_is_not_sql :
  append 0 Undefined [] (SQL (Fragments ["id = "; ""]) [VNumber 1] []).2 =
  Some (Return (RParams "id = ?" "id = $1" "id = ?" (ValuesOf 0)),
        [mkSQLString 0 "id = $1" "id = ?" [VNumber 1]]).
Proof. reflexivity. Qed.

(** ** The iterator *)

Lemma drain_values h σ this fuel i :
  σ !! h = Some this →
  length (values this) - i < fuel →
  drain fuel (GenValues (ValuesOf h) i) σ = Some (drop i (values this)).
Proof.
  intros Hthis. revert i.
  induction fuel as [|fuel IH]; intros i Hfuel; [lia|].
  cbn [drain next read_array]. rewrite Hthis. cbn [fmap option_fmap option_map mbind option_bind].
  destruct (values this !! i) as [v|] eqn:Hv.
  - rewrite IH.
    + cbn. by rewrite (drop_S _ _ _ Hv).
    + apply lookup_lt_Some in Hv. lia.
  - apply lookup_ge_None in Hv. by rewrite drop_ge.
Qed.

(** C8: iterating the handle yields [sql] and then every bound value in
    the order of the array; enough [next] calls always reach the end, and
    a second iteration over the same store yields the same sequence. *)
Theorem iterate_statement h σ this fuel fuel' :
  σ !! h = Some this →
  length (values this) + 2 ≤ fuel →
  length (values this) + 2 ≤ fuel' →
  drain fuel (iterator h) σ = Some (VString (sql this) :: values this) ∧
  drain fuel' (iterator h) σ = drain fuel (iterator h) σ.
Proof.
  intros Hthis Hfuel Hfuel'.
  assert (∀ n, length (values this) + 2 ≤ n →
    drain n (iterator h) σ = Some (VString (sql this) :: values this)) as Hrun.
  { intros [|n] Hn; [lia|]. unfold iterator. cbn [drain next]. rewrite Hthis.
    cbn [mbind option_bind]. rewrite (drain_values h σ this) by (done || lia).
    by rewrite drop_0. }
  by rewrite !Hrun.
Qed.

Lemma iterate_statement_witness :
  drain 3 (iterator 0) [mkSQLString 0 "id = $1" "id = ?" [VNumber 1]] =
    Some [VString "id = ?"; VNumber 1] ∧
  drain 5 (iterator 0) [mkSQLString 0 "id = $1" "id = ?" [VNumber 1]] =
    drain 3 (iterator 0) [mkSQLString 0 "id = $1" "id = ?" [VNumber 1]].
Proof.
  apply (iterate_statement 0 [mkSQLString 0 "id = $1" "id = ?" [VNumber 1]]
           (mkSQLString 0 "id = $1" "id = ?" [VNumber 1]) 3 5);
    [reflexivity | simpl; lia | simpl; lia].
Defined.

(** ** Growth and identity of the handle *)

Lemma prefix_append (s t : string) : string_prefix s (s +:+ t).
Proof. by exists t. Qed.

Lemma append_body_method self tmpl vals this :
  append_method (append_body self tmpl vals this).2 = append_method this.
Proof.
  destruct tmpl as [| |s|[|first rest]]; try done; cbn [append_body];
    by rewrite append_parts_cons.
Qed.

Lemma heap_ok_nil : heap_ok [].
Proof. intros h this Hh. by rewrite lookup_nil in Hh. Qed.

Lemma append_heap_ok h tmpl vals σ c σ' :
  heap_ok σ → append h tmpl vals σ = Some (c, σ') → heap_ok σ'.
Proof.
  intros Hok Happ. destruct (σ !! h) as [this|] eqn:Hthis.
  - rewrite (append_lookup _ _ _ _ _ Hthis) in Happ.
    injection Happ as _ <-. intros k cell Hk.
    destruct (decide (h = k)) as [->|Hne].
    + rewrite list_lookup_insert_eq in Hk by by eapply lookup_lt_Some.
      injection Hk as <-. rewrite append_body_method. by apply Hok.
    + rewrite list_lookup_insert_ne in Hk by done. by apply Hok.
  - unfold append in Happ. by rewrite Hthis in Happ.
Qed.

Lemma SQL_heap_ok tmpl vals σ : heap_ok σ → heap_ok (SQL tmpl vals σ).2.
Proof.
  intros Hok.
  assert (∀ this', append_method this' = length σ → heap_ok (σ ++ [this']))
    as Hfresh.
  { intros this' Hm k cell Hk. apply lookup_app_Some in Hk as [Hk|[Hge Hk]].
    - by apply Hok.
    - apply list_lookup_singleton_Some in Hk as [Hk <-]. rewrite Hm. lia. }
  unfold SQL.
  pose proof (append_body_method (length σ) tmpl vals
                (mkSQLString (length σ) "" "" [])) as Hm.
  destruct (append_body _ _ _ _) as [[r|e] this']; by apply Hfresh.
Qed.

(** C7: a call that appends, in the interleaved form, in the raw-string
    form, or through the [append] method, returns the handle it was
    called on, keeps the former [sql] and [text] as the beginning of the
    new ones, and keeps the former values, in their order, as the
    beginning of the new array. *)
Theorem append_only_grows h tmpl vals σ this :
  heap_ok σ →
  σ !! h = Some this →
  appends_to tmpl →
  ∃ this',
    append h tmpl vals σ = Some (Return (RHandle h), <[h := this']> σ) ∧
    call_append_method h tmpl vals σ =
      Some (Return (RHandle h), <[h := this']> σ) ∧
    string_prefix (sql this) (sql this') ∧
    string_prefix (text this) (text this') ∧
    values this `prefix_of` values this'.
Proof.
  intros Hok Hthis Htmpl.
  assert (∃ first rest,
    append_body h tmpl vals this = append_parts h (first :: rest) vals this)
    as (first & rest & Hbody).
  { destruct tmpl as [| |s|[|first rest]]; try done; by eexists _, _. }
  rewrite append_parts_cons in Hbody.
  exists (append_body h tmpl vals this).2. split_and!.
  - by rewrite (append_lookup _ _ _ _ _ Hthis), Hbody.
  - unfold call_append_method. rewrite Hthis. cbn [mbind option_bind].
    rewrite (Hok _ _ Hthis).
    by rewrite (append_lookup _ _ _ _ _ Hthis), Hbody.
  - rewrite Hbody. apply prefix_append.
  - rewrite Hbody. apply prefix_append.
  - rewrite Hbody. by apply prefix_app_r.
Qed.

Lemma append_only_grows_witness :
  ∃ this',
    append 0 (Fragments [" AND b = "; ""]) [VString "bob"]
      [mkSQLString 0 "a = $1" "a = ?" [VNumber 1]] =
      Some (Return (RHandle 0),
            <[0 := this']> [mkSQLString 0 "a = $1" "a = ?" [VNumber 1]]) ∧
    call_append_method 0 (Fragments [" AND b = "; ""]) [VString "bob"]
      [mkSQLString 0 "a = $1" "a = ?" [VNumber 1]] =
      Some (Return (RHandle 0),
            <[0 := this']> [mkSQLString 0 "a = $1" "a = ?" [VNumber 1]]) ∧
    string_prefix "a = ?" (sql this') ∧
    string_prefix "a = $1" (text this') ∧
    [VNumber 1] `prefix_of` values this'.
Proof.
  apply (append_only_grows 0 (Fragments [" AND b = "; ""]) [VString "bob"]
           [mkSQLString 0 "a = $1" "a = ?" [VNumber 1]]
           (mkSQLString 0 "a = $1" "a = ?" [VNumber 1])).
  - intros [|[|h]] this Hh; by inversion Hh.
  - reflexivity.
  - exact I.
Defined.

(** ** Successive calls against one combined call *)

Lemma append_fragments_cons h first rest vals σ this :
  σ !! h = Some this →
  append h (Fragments (first :: rest)) vals σ =
  Some (Return (RHandle h),
        <[h := {| append_method := append_method this;
                  text := text this +:+ first +:+
                          text_tail (length (values this) + 1) rest;
                  sql := sql this +:+ first +:+ sql_tail rest;
                  values := values this ++ vals |}]> σ).
Proof.
  intros Hthis. rewrite (append_lookup _ _ _ _ _ Hthis). cbn [append_body].
  by rewrite append_parts_cons.
Qed.

Lemma text_tail_glue n part rest first2 rest2 :
  text_tail n (glue (part :: rest) (first2 :: rest2)) =
  text_tail n (part :: rest) +:+ first2 +:+
  text_tail (n + S (length rest)) rest2.
Proof.
  revert n part. induction rest as [|q rest IH]; intros n part.
  - cbn [glue text_tail length]. rewrite !append_assoc, append_nil_l.
    by replace (n + 1) with (S n) by lia.
  - change (glue (part :: q :: rest) (first2 :: rest2))
      with (part :: glue (q :: rest) (first2 :: rest2)).
    cbn [text_tail]. rewrite IH. cbn [text_tail length].
    rewrite !append_assoc.
    by replace (n + S (S (length rest))) with (S n + S (length rest)) by lia.
Qed.

Lemma sql_tail_glue part rest first2 rest2 :
  sql_tail (glue (part :: rest) (first2 :: rest2)) =
  sql_tail (part :: rest) +:+ first2 +:+ sql_tail rest2.
Proof.
  revert part. induction rest as [|q rest IH]; intros part.
  - cbn [glue sql_tail]. by rewrite !append_assoc, append_nil_l.
  - change (glue (part :: q :: rest) (first2 :: rest2))
      with (part :: glue (q :: rest) (first2 :: rest2)).
    cbn [sql_tail]. rewrite IH. cbn [sql_tail].
    by rewrite !append_assoc.
Qed.

Lemma length_glue parts1 first2 rest2 :
  parts1 ≠ [] →
  length (glue parts1 (first2 :: rest2)) = length parts1 + length rest2.
Proof.
  induction parts1 as [|part [|q rest] IH]; intros Hne; [done|simpl; lia|].
  change (glue (part :: q :: rest) (first2 :: rest2))
    with (part :: glue (q :: rest) (first2 :: rest2)).
  cbn [length]. rewrite IH by done. simpl. lia.
Qed.

Lemma combine_interleaved b1 b2 :
  interleaved b1 → interleaved b2 → interleaved (combine b1 b2).
Proof.
  destruct b1 as [parts1 vals1], b2 as [[|first2 rest2] vals2];
    unfold interleaved, combine; cbn [fst snd]; intros H1 H2; [done|].
  rewrite length_glue by (by destruct parts1).
  rewrite length_app. simpl in H2. lia.
Qed.

(** Two successive calls and the call that carries both. *)
Lemma appends_combine h b1 b2 bs σ this :
  σ !! h = Some this →
  interleaved b1 → interleaved b2 →
  appends h (b1 :: b2 :: bs) σ = appends h (combine b1 b2 :: bs) σ.
Proof.
  destruct b1 as [[|first1 rest1] vals1], b2 as [[|first2 rest2] vals2];
    unfold interleaved, combine; cbn [fst snd]; intros Hthis H1 H2;
    [done|done|done|].
  assert (h < length σ) as Hlt by by eapply lookup_lt_Some.
  cbn [appends]. rewrite (append_fragments_cons _ _ _ _ _ _ Hthis).
  rewrite (append_fragments_cons h first2 rest2 vals2 _ _
             (list_lookup_insert_eq _ _ _ Hlt)).
  rewrite list_insert_insert_eq. cbn [append_method text sql values].
  destruct rest1 as [|q rest1].
  - cbn [glue]. rewrite (append_fragments_cons _ _ _ _ _ _ Hthis).
    destruct vals1; [|done].
    do 3 f_equal; cbn [text_tail sql_tail];
      by rewrite ?app_nil_r, ?append_empty_r, ?append_assoc.
  - change (glue (first1 :: q :: rest1) (first2 :: rest2))
      with (first1 :: glue (q :: rest1) (first2 :: rest2)).
    rewrite (append_fragments_cons _ _ _ _ _ _ Hthis).
    rewrite text_tail_glue, sql_tail_glue, !append_assoc, <- app_assoc.
    rewrite length_app. cbn [length] in H1.
    by replace (length (values this) + length vals1 + 1)
      with (length (values this) + 1 + S (length rest1)) by lia.
Qed.

Lemma appends_is_Some h bs σ this :
  σ !! h = Some this →
  Forall interleaved bs →
  is_Some (appends h bs σ).
Proof.
  intros Hthis Hbs. revert σ this Hthis.
  induction Hbs as [|[[|first rest] vals] bs Hb _ IH]; intros σ this Hthis;
    [done|done|].
  cbn [appends]. rewrite (append_fragments_cons _ _ _ _ _ _ Hthis).
  eapply IH, list_lookup_insert_eq. by eapply lookup_lt_Some.
Qed.

(** C6: successive calls of the interleaved form leave the statement as
    the one call does that carries all their fragments and values in the
    same order, the fragments that meet between two calls concatenated:
    same [sql], same [text], same [values]; and the calls do complete. *)
Theorem appends_combined h b bs σ this :
  σ !! h = Some this →
  Forall interleaved (b :: bs) →
  appends h (b :: bs) σ = appends h [combine_all b bs] σ ∧
  is_Some (appends h (b :: bs) σ).
Proof.
  intros Hthis Hall. split; [|by eapply appends_is_Some].
  revert b Hall. induction bs as [|b' bs IH]; intros b Hall; [done|].
  apply Forall_cons in Hall as [Hb Hall].
  pose proof Hall as [Hb' Hbs]%Forall_cons.
  rewrite (appends_combine _ _ _ _ _ _ Hthis Hb Hb').
  apply IH. apply Forall_cons. split; [|done].
  by apply combine_interleaved.
Qed.

Lemma appends_combined_witness :
  appends 0 [([" WHERE id = "; ""], [VNumber 1]);
             ([" AND username = "; ";"], [VString "bob"])]
    [mkSQLString 0 "SELECT *" "SELECT *" []] =
  appends 0 [([" WHERE id = "; " AND username = "; ";"],
              [VNumber 1; VString "bob"])]
    [mkSQLString 0 "SELECT *" "SELECT *" []] ∧
  is_Some (appends 0 [([" WHERE id = "; ""], [VNumber 1]);
                      ([" AND username = "; ";"], [VString "bob"])]
             [mkSQLString 0 "SELECT *" "SELECT *" []]).
Proof.
  apply (appends_combined 0 ([" WHERE id = "; ""], [VNumber 1])
           [([" AND username = "; ";"], [VString "bob"])]
           [mkSQLString 0 "SELECT *" "SELECT *" []]
           (mkSQLString 0 "SELECT *" "SELECT *" [])).
  - reflexivity.
  - repeat constructor.
Defined.

(** ** Placeholders and bound values *)

Lemma count_char_append c a b :
  count_char c (a +:+ b) = count_char c a + count_char c b.
Proof.
  induction a as [|x a IH]; [done|].
  rewrite append_cons_l. cbn [count_char]. rewrite IH. lia.
Qed.

Lemma scan_append q a b :
  scan q (a +:+ b) =
  ((scan q a).1 ++ (scan (scan q a).2 b).1, (scan (scan q a).2 b).2).
Proof.
  revert q. induction a as [|c a IH]; intros q.
  - rewrite append_nil_l. cbn [scan fst snd]. by destruct (scan q b).
  - rewrite append_cons_l. cbn [scan].
    destruct (scan_step q c) as [out q']. rewrite IH.
    destruct (scan q' a) as [out' q'']. cbn [fst snd].
    destruct (scan q'' b) as [out'' q''']. cbn [fst snd].
    by rewrite app_assoc.
Qed.

Lemma placeholders_seen s : placeholders s = seen (scan Idle s).
Proof. unfold placeholders, seen. by destruct (scan Idle s). Qed.

Lemma scan_digits d acc :
  scan (Number acc) (NilEmpty.string_of_uint d) =
  ([], Number (Nat.of_uint_acc d acc)).
Proof.
  revert acc. induction d as [|d IH|d IH|d IH|d IH|d IH|d IH|d IH|d IH|d IH|d IH];
    intros acc; [done|..];
    cbn [NilEmpty.string_of_uint scan Nat.of_uint_acc];
    change (scan_step (Number acc) ?c)
      with (@nil nat, Number (10 * acc + digit_value c));
    cbv beta iota; rewrite IH; cbn [app]; do 3 f_equal;
    rewrite Nat.tail_mul_spec; unfold digit_value; cbn [nat_of_ascii]; simpl; lia.
Qed.

Lemma scan_dollar_digits d :
  d ≠ Nil →
  scan Dollar (NilEmpty.string_of_uint d) = ([], Number (Nat.of_uint d)).
Proof.
  destruct d; intros Hd; [done|..];
    cbn [NilEmpty.string_of_uint scan];
    change (scan_step Dollar ?c) with (@nil nat, Number (digit_value c));
    cbv beta iota; rewrite scan_digits; reflexivity.
Qed.

Lemma to_uint_not_Nil m : Nat.to_uint m ≠ Nil.
Proof.
  rewrite <- (Unsigned.of_to m) at 1. rewrite Unsigned.to_of.
  apply DecimalFacts.unorm_nonnil.
Qed.

(** A [$] and a number are read back as that number. *)
Lemma scan_dollar_number q m :
  scan q ("$" +:+ number_to_string m) = (flush q, Number m).
Proof.
  rewrite append_cons_l, append_nil_l. cbn [scan].
  change (scan_step q "$") with (flush q, Dollar). cbv beta iota.
  unfold number_to_string.
  rewrite scan_dollar_digits by apply to_uint_not_Nil.
  by rewrite Unsigned.of_to, app_nil_r.
Qed.

Lemma count_sql_tail rest :
  Forall (λ f, plain f = true) rest →
  count_char "?" (sql_tail rest) = length rest.
Proof.
  induction 1 as [|part rest Hpart _ IH]; [done|].
  cbn [sql_tail length]. rewrite !count_char_append, IH.
  unfold plain in Hpart.
  apply andb_prop in Hpart as [[Hq%Nat.eqb_eq _]%andb_prop _].
  rewrite Hq. simpl. lia.
Qed.

(** *** The scanner on concatenations *)

Lemma seen_cons q c s :
  seen (scan q (String c s)) =
  (scan_step q c).1 ++ seen (scan (scan_step q c).2 s).
Proof.
  unfold seen. cbn [scan]. destruct (scan_step q c) as [out q'].
  cbn [fst snd]. destruct (scan q' s) as [out' q'']. cbn [fst snd].
  by rewrite app_assoc.
Qed.

Lemma seen_append q a b :
  seen (scan q (a +:+ b)) = (scan q a).1 ++ seen (scan (scan q a).2 b).
Proof.
  unfold seen. rewrite scan_append. cbn [fst snd]. by rewrite app_assoc.
Qed.

(** A placeholder being read is never lost. *)
Lemma seen_length q s : length (flush q) ≤ length (seen (scan q s)).
Proof.
  revert q. induction s as [|c s IH]; intros q.
  - unfold seen. cbn [scan fst snd app]. lia.
  - rewrite seen_cons, length_app.
    specialize (IH (scan_step q c).2). unfold scan_step in *.
    destruct (Ascii.eqb c "$"); [cbn [fst snd] in *; lia|].
    destruct (is_digit c); [|cbn [fst snd] in *; lia].
    destruct q; cbn [fst snd flush length] in *; lia.
Qed.

(** From inside a number, the first placeholder read is that number or a
    longer one. *)
Lemma seen_number_head m s :
  ∃ m' l, seen (scan (Number m) s) = m' :: l ∧ m ≤ m'.
Proof.
  revert m. induction s as [|c s IH]; intros m.
  - by exists m, [].
  - rewrite seen_cons. unfold scan_step.
    destruct (Ascii.eqb c "$"); [by eexists _, _|].
    destruct (is_digit c); [|by eexists _, _].
    cbn [fst snd app].
    destruct (IH (10 * m + digit_value c)) as (m' & l & -> & Hm).
    exists m', l. split; [done|lia].
Qed.

Lemma is_digit_not_dollar c : is_digit c = true → Ascii.eqb c "$" = false.
Proof.
  intros Hc. destruct (Ascii.eqb_spec c "$") as [->|]; [|done].
  by vm_compute in Hc.
Qed.

(** A digit right after a number makes it at least ten times as big. *)
Lemma seen_number_digit m c s :
  is_digit c = true →
  ∃ m' l, seen (scan (Number m) (String c s)) = m' :: l ∧ 10 * m ≤ m'.
Proof.
  intros Hc. rewrite seen_cons. unfold scan_step.
  rewrite (is_digit_not_dollar c Hc), Hc. cbn [fst snd app].
  destruct (seen_number_head (10 * m + digit_value c) s) as (m' & l & -> & Hm).
  exists m', l. split; [done|lia].
Qed.

(** Anything but a digit ends the number and is then read as from
    outside a placeholder. *)
Lemma seen_number_other m c s :
  is_digit c = false →
  seen (scan (Number m) (String c s)) = m :: seen (scan Idle (String c s)).
Proof.
  intros Hc. rewrite !seen_cons. unfold scan_step. rewrite Hc.
  by destruct (Ascii.eqb c "$").
Qed.

Lemma seen_text_tail_cons q n f rest :
  seen (scan q (text_tail n (f :: rest))) =
  flush q ++ seen (scan (Number n) (f +:+ text_tail (S n) rest)).
Proof.
  cbn [text_tail]. rewrite <- (append_assoc "$").
  by rewrite seen_append, scan_dollar_number.
Qed.

(** Every placeholder the builder writes is read back, as itself or as
    a longer number. *)
Lemma seen_text_tail_length q n rest :
  length (flush q) + length rest ≤
  length (seen (scan q (text_tail n rest))).
Proof.
  revert q n. induction rest as [|f rest IH]; intros q n.
  - cbn [text_tail length]. pose proof (seen_length q ""). lia.
  - rewrite seen_text_tail_cons, seen_append, !length_app.
    pose proof (seen_length (Number n) f) as Hf.
    unfold seen in Hf. rewrite length_app in Hf.
    specialize (IH (scan (Number n) f).2 (S n)).
    cbn [flush length] in *. lia.
Qed.

(** *** When the placeholders of [text] are read back as written *)

(** After a fragment that was read from outside a placeholder. *)
Lemma after_fragment out q n rest :
  (∀ q', seen (scan q' (text_tail n rest)) =
         flush q' ++ seq n (length rest) ↔ Forall quiet rest) →
  out ++ seen (scan q (text_tail n rest)) = seq n (length rest) ↔
  (out = [] ∧ flush q = []) ∧ Forall quiet rest.
Proof.
  intros Htail. split.
  - intros Heq.
    pose proof (seen_text_tail_length q n rest) as Hlen.
    pose proof (f_equal length Heq) as Hl.
    rewrite length_app, length_seq in Hl.
    assert (out = []) as -> by (apply length_zero_iff_nil; lia).
    assert (flush q = []) as Hq by (apply length_zero_iff_nil; lia).
    split; [done|]. apply (Htail q). by rewrite Hq.
  - intros [[-> Hq] Hrest]. apply (Htail q) in Hrest. by rewrite Hrest, Hq.
Qed.

Lemma placeholders_nil f :
  placeholders f = [] ↔ (scan Idle f).1 = [] ∧ flush (scan Idle f).2 = [].
Proof. rewrite placeholders_seen. unfold seen. apply app_nil. Qed.

Lemma seen_text_tail_iff rest n q :
  1 ≤ n →
  seen (scan q (text_tail n rest)) = flush q ++ seq n (length rest) ↔
  Forall quiet rest.
Proof.
  revert n q. induction rest as [|f rest IH]; intros n q Hn.
  - cbn [text_tail length seq]. unfold seen. cbn [scan fst snd app].
    by rewrite app_nil_r.
  - rewrite seen_text_tail_cons, Forall_cons. cbn [length seq].
    assert (∀ X : list nat,
      flush q ++ X = flush q ++ n :: seq (S n) (length rest) ↔
      X = n :: seq (S n) (length rest)) as ->.
    { intros X. split; [apply app_inv_head|by intros ->]. }
    destruct f as [|c f].
    + rewrite append_nil_l.
      rewrite (IH (S n) (Number n)) by lia.
      unfold quiet. cbn [leading_digit]. by intuition.
    + rewrite append_cons_l. destruct (is_digit c) eqn:Hc.
      * split.
        -- intros Heq.
           destruct (seen_number_digit n c (f +:+ text_tail (S n) rest) Hc)
             as (m' & l & Hm & Hle).
           rewrite Hm in Heq. injection Heq as -> _. lia.
        -- intros [[_ Hlead] _]. cbn [leading_digit] in Hlead. congruence.
      * rewrite seen_number_other by done.
        rewrite <- append_cons_l, seen_append.
        assert (∀ X : list nat,
          n :: X = n :: seq (S n) (length rest) ↔
          X = seq (S n) (length rest)) as ->.
        { intros X. split; [by intros [= ->]|by intros ->]. }
        rewrite (after_fragment _ _ _ _ (λ q', IH (S n) q' ltac:(lia))).
        unfold quiet. rewrite placeholders_nil. cbn [leading_digit].
        by intuition.
Qed.

(** The placeholders of the rendering of a whole list of fragments. *)
Lemma placeholders_text_iff first rest :
  placeholders (first +:+ text_tail 1 rest) = seq 1 (length rest) ↔
  fragments_quiet (first :: rest).
Proof.
  rewrite placeholders_seen, seen_append.
  rewrite (after_fragment _ _ _ _ (λ q', seen_text_tail_iff rest 1 q' ltac:(lia))).
  cbn [fragments_quiet]. by rewrite placeholders_nil.
Qed.

(** *** When the [?] of [sql] are as many as the values *)

Lemma count_sql_tail_iff k rest :
  k + count_char "?" (sql_tail rest) = length rest ↔
  k = 0 ∧ Forall (λ f, count_char "?" f = 0) rest.
Proof.
  revert k. induction rest as [|f rest IH]; intros k.
  - cbn [sql_tail count_char length]. rewrite Forall_nil. intuition lia.
  - cbn [sql_tail length]. rewrite !count_char_append, Forall_cons.
    change (count_char "?" "?") with 1.
    specialize (IH (k + count_char "?" f)). split.
    + intros Heq.
      assert (k + count_char "?" f + count_char "?" (sql_tail rest) =
              length rest) as [Hk Hrest]%IH by lia.
      split_and!; [lia|lia|done].
    + intros (-> & Hf & Hrest). rewrite Hf in *.
      destruct IH as [_ IH]. specialize (IH (conj eq_refl Hrest)). lia.
Qed.

Lemma count_sql_iff first rest :
  count_char "?" (first +:+ sql_tail rest) = length rest ↔
  Forall (λ f, count_char "?" f = 0) (first :: rest).
Proof. by rewrite count_char_append, count_sql_tail_iff, Forall_cons. Qed.

(** *** The fragments a statement was built from *)

Lemma carries_append b first rest vals this :
  carries b this →
  interleaved (first :: rest, vals) →
  carries (combine b (first :: rest, vals))
    {| append_method := append_method this;
       text := text this +:+ first +:+
               text_tail (length (values this) + 1) rest;
       sql := sql this +:+ first +:+ sql_tail rest;
       values := values this ++ vals |}.
Proof.
  destruct b as [[|p0 ptail] vals0]; intros (Hb & Hsql & Htext & Hvals) Hint;
    [done|].
  unfold interleaved in *. cbn [fst snd length] in *.
  rewrite sql_extension_cons in Hsql. rewrite text_extension_cons in Htext.
  unfold carries, interleaved, combine. cbn [fst snd text sql values].
  rewrite Hvals. split_and!; [| | |done].
  - rewrite length_glue, length_app by done. cbn [length]. lia.
  - rewrite Hsql. destruct ptail as [|q r].
    + cbn [glue]. rewrite sql_extension_cons. cbn [sql_tail].
      by rewrite append_empty_r, append_assoc.
    + change (glue (p0 :: q :: r) (first :: rest))
        with (p0 :: glue (q :: r) (first :: rest)).
      by rewrite sql_extension_cons, sql_tail_glue, !append_assoc.
  - rewrite Htext. destruct ptail as [|q r].
    + cbn [glue]. rewrite text_extension_cons. cbn [text_tail length] in *.
      replace (length vals0) with 0 by lia.
      by rewrite append_empty_r, append_assoc.
    + change (glue (p0 :: q :: r) (first :: rest))
        with (p0 :: glue (q :: r) (first :: rest)).
      rewrite text_extension_cons, text_tail_glue, !append_assoc.
      cbn [length] in Hb.
      by replace (length vals0 + 1) with (0 + 1 + S (length r)) by lia.
Qed.

Lemma appends_carries h bs b σ this :
  σ !! h = Some this →
  carries b this →
  Forall interleaved bs →
  ∃ σ' this',
    appends h bs σ = Some σ' ∧ σ' !! h = Some this' ∧
    carries (combine_all b bs) this'.
Proof.
  intros Hthis Hb Hint. revert b σ this Hthis Hb.
  induction Hint as [|[[|first rest] vals] bs Hb' _ IH];
    intros b σ this Hthis Hb.
  - by eexists _, _.
  - done.
  - cbn [appends]. rewrite (append_fragments_cons _ _ _ _ _ _ Hthis).
    unfold combine_all. cbn [foldl].
    eapply IH; [|by apply carries_append].
    apply list_lookup_insert_eq. by eapply lookup_lt_Some.
Qed.

(** C2, as the code has it.  After [SQL] and any number of calls of the
    interleaved form, take the fragments in their order, those that meet
    between two calls concatenated.  Then [sql] holds as many [?] as there
    are bound values if and only if no fragment contains a [?]; and the
    numbered placeholders of [text] are [$1] to [$k] from left to right,
    [k] being the number of bound values, if and only if no fragment
    contains a [$] followed by a digit and no fragment but the first
    begins with a digit. *)
Theorem placeholders_agree_iff b bs σ :
  Forall interleaved (b :: bs) →
  ∃ σ0 σ' this,
    SQL (Fragments b.1) b.2 σ = (Return (RHandle (length σ)), σ0) ∧
    appends (length σ) bs σ0 = Some σ' ∧
    σ' !! length σ = Some this ∧
    (count_char "?" (sql this) = length (values this) ↔
     Forall (λ f, count_char "?" f = 0) (combine_all b bs).1) ∧
    (placeholders (text this) = seq 1 (length (values this)) ↔
     fragments_quiet (combine_all b bs).1).
Proof.
  intros [Hb Hint]%Forall_cons.
  destruct b as [[|first rest] vals]; [done|]. cbn [fst snd].
  unfold SQL. cbn [append_body]. rewrite append_parts_cons.
  cbn [append_method text sql values].
  set (cell := mkSQLString _ _ _ _).
  assert (carries (first :: rest, vals) cell) as Hcell.
  { unfold carries, cell. cbn [fst snd sql text values].
    by rewrite sql_extension_cons, text_extension_cons. }
  destruct (appends_carries (length σ) bs (first :: rest, vals)
              (σ ++ [cell]) cell)
    as (σ' & this & Hrun & Hl & Hnet & Hsql & Htext & Hvals); [|done|done|].
  { by apply list_lookup_middle. }
  exists (σ ++ [cell]), σ', this. split_and!; [done..| |].
  - destruct (combine_all _ bs) as [[|p0 ptail] vals']; [done|].
    unfold interleaved in Hnet. cbn [fst snd length] in *.
    rewrite Hsql, Hvals, sql_extension_cons.
    replace (length vals') with (length ptail) by lia.
    apply count_sql_iff.
  - destruct (combine_all _ bs) as [[|p0 ptail] vals']; [done|].
    unfold interleaved in Hnet. cbn [fst snd length] in *.
    rewrite Htext, Hvals, text_extension_cons.
    replace (length vals') with (length ptail) by lia.
    apply placeholders_text_iff.
Qed.

(** The sequence of calls of the README, with a fragment that begins with
    a digit and a fragment that holds a [$]. *)
Lemma placeholders_agree_iff_witness :
  ∃ σ0 σ' this,
    SQL (Fragments
           (["SELECT data->'$.name' FROM "],
            @nil value).1)
        (["SELECT data->'$.name' FROM "], @nil value).2 [] =
      (Return (RHandle (length (@nil SQLString))), σ0) ∧
    appends (length (@nil SQLString))
      [(["users"], []);
       ([" WHERE username = "; ""], [VString "bob"]);
       ([" AND ID in ("], []);
       ([""; ", "], [VNumber 1]);
       ([""; ", "], [VNumber 2]);
       ([""; ", "], [VNumber 3]);
       (["4)"], [])] σ0 = Some σ' ∧
    σ' !! length (@nil SQLString) = Some this ∧
    (count_char "?" (sql this) = length (values this) ↔
     Forall (λ f, count_char "?" f = 0)
       (combine_all (["SELECT data->'$.name' FROM "], [])
          [(["users"], []);
           ([" WHERE username = "; ""], [VString "bob"]);
           ([" AND ID in ("], []);
           ([""; ", "], [VNumber 1]);
           ([""; ", "], [VNumber 2]);
           ([""; ", "], [VNumber 3]);
           (["4)"], [])]).1) ∧
    (placeholders (text this) = seq 1 (length (values this)) ↔
     fragments_quiet
       (combine_all (["SELECT data->'$.name' FROM "], [])
          [(["users"], []);
           ([" WHERE username = "; ""], [VString "bob"]);
           ([" AND ID in ("], []);
           ([""; ", "], [VNumber 1]);
           ([""; ", "], [VNumber 2]);
           ([""; ", "], [VNumber 3]);
           (["4)"], [])]).1).
Proof.
  apply (placeholders_agree_iff (["SELECT data->'$.name' FROM "], [])
           [(["users"], []);
            ([" WHERE username = "; ""], [VString "bob"]);
            ([" AND ID in ("], []);
            ([""; ", "], [VNumber 1]);
            ([""; ", "], [VNumber 2]);
            ([""; ", "], [VNumber 3]);
            (["4)"], [])] []).
  repeat constructor.
Defined.

(** A [?] inside a fragment is counted with the placeholders: the claim
    C2 does not hold for every fragment. *)
Lemma placeholders_agree_counterexample :
  ¬ (∀ b bs σ,
       Forall interleaved (b :: bs) →
       ∃ σ0 σ' this,
         SQL (Fragments b.1) b.2 σ = (Return (RHandle (length σ)), σ0) ∧
         appends (length σ) bs σ0 = Some σ' ∧
         σ' !! length σ = Some this ∧
         placeholders_agree this).
Proof.
  intros Hclaim.
  destruct (Hclaim (["SELECT '?' = "; ""], [VString "a"]) [] [])
    as (σ0 & σ' & this & Hsql & Hrun & Hthis & Hcount & _).
  { repeat constructor. }
  injection Hsql as <-. injection Hrun as <-. injection Hthis as <-.
  vm_compute in Hcount. discriminate.
Qed.

(** A fragment that starts with a digit continues the number of the
    placeholder before it: [$1] followed by [0] reads [$10]. *)
Example digit_after_placeholder :
  ∃ this,
    (SQL (Fragments ["LIMIT "; "0"]) [VNumber 1] []).2 !! 0 = Some this ∧
    text this = "LIMIT $10" ∧
    placeholders (text this) = [10] ∧
    values this = [VNumber 1].
Proof. eexists. by split_and!. Qed.

(** A [$] followed by a digit inside a fragment is read as a placeholder
    of its own. *)
Example dollar_digit_in_fragment :
  ∃ this,
    (SQL (Fragments ["a $5 = "; ""]) [VNumber 1] []).2 !! 0 = Some this ∧
    placeholders (text this) = [5; 1] ∧
    values this = [VNumber 1].
Proof. eexists. by split_and!. Qed.

(** A [$] that no digit follows, and a digit in front of a fragment that
    follows no placeholder, disturb nothing. *)
Example dollar_and_digit_harmless :
  ∃ σ this,
    appends 0 [([" AND tag = "; " AND ID in ("], [VString "x"]);
               (["4)"], [])]
      (SQL (Fragments ["SELECT data->'$.name', $$a$$ WHERE id = "; ""])
         [VNumber 1] []).2 = Some σ ∧
    σ !! 0 = Some this ∧
    placeholders_agree this.
Proof. eexists _, _. by split_and!. Qed.

(** ** Scenarios *)

Example SQL_users :
  SQL (Fragments ["SELECT * FROM users WHERE id = "; " AND username = "; ""])
    [VNumber 1; VString "bob"] [] =
  (Return (RHandle 0),
   [ {| append_method := 0;
        text := "SELECT * FROM users WHERE id = $1 AND username = $2";
        sql := "SELECT * FROM users WHERE id = ? AND username = ?";
        values := [VNumber 1; VString "bob"] |} ]).
Proof. reflexivity. Qed.

(** [SQL`SELECT * FROM `], then [sql('users')], then
    [sql` WHERE id = ${1}`]. *)
Example SQL_raw_then_bound :
  let σ0 := (SQL (Fragments ["SELECT * FROM "]) [] []).2 in
  (σ1 ← snd <$> append 0 (RawString "users") [] σ0;
   snd <$> append 0 (Fragments [" WHERE id = "; ""]) [VNumber 1] σ1) =
  Some [ {| append_method := 0;
            text := "SELECT * FROM users WHERE id = $1";
            sql := "SELECT * FROM users WHERE id = ?";
            values := [VNumber 1] |} ].
Proof. reflexivity. Qed.

(** Three calls with one value each: the numbering goes on from one call
    to the next. *)
Example SQL_three_appends :
  appends 0 [(["("; ", "], [VNumber 1]);
             ([""; ", "], [VNumber 2]);
             ([""; ")"], [VNumber 3])]
    (SQL (Fragments ["ID in "]) [] []).2 =
  Some [ {| append_method := 0;
            text := "ID in ($1, $2, $3)";
            sql := "ID in (?, ?, ?)";
            values := [VNumber 1; VNumber 2; VNumber 3] |} ].
Proof. reflexivity. Qed.

(** [[...sql]] after [SQL`SELECT * FROM users WHERE id = ${1}`]. *)
Example SQL_spread :
  drain 3 (iterator 0)
    (SQL (Fragments ["SELECT * FROM users WHERE id = "; ""]) [VNumber 1] []).2 =
  Some [VString "SELECT * FROM users WHERE id = ?"; VNumber 1].
Proof. reflexivity. Qed.

(** * Further properties of the builder *)

(** ** Construction *)

Lemma append_body_appends self tmpl vals this :
  appends_to tmpl →
  ∃ first rest,
    append_body self tmpl vals this =
    (Return (RHandle self),
     {| append_method := append_method this;
        text :=
          text this +:+ first +:+ text_tail (length (values this) + 1) rest;
        sql := sql this +:+ first +:+ sql_tail rest;
        values := values this ++ vals |}) ∧
    (tmpl = RawString first ∧ rest = [] ∨ tmpl = Fragments (first :: rest)).
Proof.
  intros Htmpl. destruct tmpl as [| |s|[|first rest]]; try done;
    eexists _, _; cbn [append_body]; rewrite append_parts_cons; eauto.
Qed.

(** X1: [SQL] adds one function object at the end of the store and leaves
    every statement that was there as it was; its [append] property is the
    new handle; it throws on an empty array of fragments and only then,
    and otherwise returns the new handle. *)
Theorem SQL_allocates tmpl vals σ :
  ∃ cell,
    (SQL tmpl vals σ).2 = σ ++ [cell] ∧
    append_method cell = length σ ∧
    (SQL tmpl vals σ).1 =
      match tmpl with
      | Fragments [] => Throw TypeError
      | _ => Return (RHandle (length σ))
      end.
Proof.
  unfold SQL.
  pose proof (append_body_method (length σ) tmpl vals
                (mkSQLString (length σ) "" "" [])) as Hm.
  destruct tmpl as [| |s|[|first rest]]; cbn [append_body] in *;
    rewrite ?append_parts_cons, ?append_parts_nil in *;
    by eexists.
Qed.

Lemma built_heap_ok σ : built σ → heap_ok σ.
Proof.
  induction 1 as [|σ tmpl vals _ IH|σ h tmpl vals c σ' _ IH Hcall
                  |σ h tmpl vals c σ' _ IH Hcall].
  - apply heap_ok_nil.
  - by apply SQL_heap_ok.
  - by eapply append_heap_ok.
  - unfold call_append_method in Hcall.
    destruct (σ !! h) as [this|] eqn:Hthis; [|done].
    cbn [mbind option_bind] in Hcall. by eapply append_heap_ok.
Qed.

(** X3: in every store a program can build, a handle and its [append]
    method are the same function: [h.append(...)] does what [h(...)]
    does, result and store. *)
Theorem method_is_call σ h tmpl vals :
  built σ →
  call_append_method h tmpl vals σ = append h tmpl vals σ.
Proof.
  intros Hok%built_heap_ok. unfold call_append_method.
  destruct (σ !! h) as [this|] eqn:Hthis; cbn [mbind option_bind].
  - by rewrite (Hok _ _ Hthis).
  - unfold append. by rewrite Hthis.
Qed.

Lemma method_is_call_witness :
  call_append_method 0 (RawString "users") []
    (SQL (Fragments ["SELECT * FROM "]) [] []).2 =
  append 0 (RawString "users") []
    (SQL (Fragments ["SELECT * FROM "]) [] []).2.
Proof.
  apply (method_is_call (SQL (Fragments ["SELECT * FROM "]) [] []).2
           0 (RawString "users") []).
  apply built_SQL, built_empty.
Defined.

(** X4: building a statement with [SQL] is building the empty statement
    and calling it once with the same arguments. *)
Theorem SQL_is_call_on_empty tmpl vals σ :
  appends_to tmpl →
  append (length σ) tmpl vals (SQL Undefined [] σ).2 =
  Some (SQL tmpl vals σ).
Proof.
  intros Htmpl. unfold SQL at 1. cbn [append_body snd].
  rewrite (append_lookup _ _ _ _ _ (list_lookup_middle _ _ _ _ eq_refl)).
  unfold SQL.
  destruct (append_body_appends (length σ) tmpl vals
              (mkSQLString (length σ) "" "" []) Htmpl)
    as (first & rest & -> & _).
  cbn [fst snd]. rewrite insert_app_r_alt by done.
  by rewrite Nat.sub_diag.
Qed.

Lemma SQL_is_call_on_empty_witness :
  append 0 (Fragments ["id = "; ""]) [VNumber 1] (SQL Undefined [] []).2 =
  Some (SQL (Fragments ["id = "; ""]) [VNumber 1] []).
Proof.
  apply (SQL_is_call_on_empty (Fragments ["id = "; ""]) [VNumber 1] []).
  exact I.
Defined.

(** ** What earlier results see of later calls *)

Lemma append_appends h tmpl vals σ this :
  σ !! h = Some this →
  appends_to tmpl →
  ∃ this',
    append h tmpl vals σ = Some (Return (RHandle h), <[h := this']> σ) ∧
    <[h := this']> σ !! h = Some this' ∧
    values this' = values this ++ vals ∧
    append_method this' = append_method this.
Proof.
  intros Hthis Htmpl.
  destruct (append_body_appends h tmpl vals this Htmpl)
    as (first & rest & Hbody & _).
  eexists. split_and!.
  - by rewrite (append_lookup _ _ _ _ _ Hthis), Hbody.
  - apply list_lookup_insert_eq. by eapply lookup_lt_Some.
  - done.
  - done.
Qed.

(** X5: the object returned by a call with no argument holds the strings
    of that moment but the array itself: after a later call that appends,
    its [values] holds the new values too, while its [sql] and [text] are
    the old ones. *)
Theorem finalized_values_are_live h tmpl vals σ this :
  σ !! h = Some this →
  appends_to tmpl →
  ∃ arr σ',
    append h Undefined [] σ =
      Some (Return (RParams (sql this) (text this) (sql this) arr), σ) ∧
    append h tmpl vals σ = Some (Return (RHandle h), σ') ∧
    read_array σ arr = Some (values this) ∧
    read_array σ' arr = Some (values this ++ vals).
Proof.
  intros Hthis Htmpl.
  destruct (append_appends h tmpl vals σ this Hthis Htmpl)
    as (this' & Hcall & Hnew & Hvals & _).
  exists (ValuesOf h), (<[h := this']> σ). split_and!.
  - rewrite (append_lookup _ _ _ _ _ Hthis). cbn [append_body fst snd].
    by rewrite list_insert_id.
  - done.
  - unfold read_array. by rewrite Hthis.
  - unfold read_array. by rewrite Hnew, <- Hvals.
Qed.

Lemma finalized_values_are_live_witness :
  ∃ arr σ',
    append 0 Undefined [] [mkSQLString 0 "a = $1" "a = ?" [VNumber 1]] =
      Some (Return (RParams "a = ?" "a = $1" "a = ?" arr),
            [mkSQLString 0 "a = $1" "a = ?" [VNumber 1]]) ∧
    append 0 (Fragments [" AND b = "; ""]) [VString "bob"]
      [mkSQLString 0 "a = $1" "a = ?" [VNumber 1]] =
      Some (Return (RHandle 0), σ') ∧
    read_array [mkSQLString 0 "a = $1" "a = ?" [VNumber 1]] arr =
      Some [VNumber 1] ∧
    read_array σ' arr = Some ([VNumber 1] ++ [VString "bob"]).
Proof.
  apply (finalized_values_are_live 0 (Fragments [" AND b = "; ""])
           [VString "bob"] [mkSQLString 0 "a = $1" "a = ?" [VNumber 1]]
           (mkSQLString 0 "a = $1" "a = ?" [VNumber 1])).
  - reflexivity.
  - exact I.
Defined.

(** X6: an iteration that has yielded [sql] and is then overtaken by a
    call that appends goes on with the values of the array as it is now:
    the caller gets the old [sql] with the old and the new values. *)
Theorem iterator_sees_later_values h tmpl vals σ this fuel :
  σ !! h = Some this →
  appends_to tmpl →
  length (values this) + length vals < fuel →
  ∃ g σ',
    next (iterator h) σ = Some (Some (VString (sql this)), g) ∧
    append h tmpl vals σ = Some (Return (RHandle h), σ') ∧
    drain fuel g σ' = Some (values this ++ vals).
Proof.
  intros Hthis Htmpl Hfuel.
  destruct (append_appends h tmpl vals σ this Hthis Htmpl)
    as (this' & Hcall & Hnew & Hvals & _).
  exists (GenValues (ValuesOf h) 0), (<[h := this']> σ). split_and!.
  - unfold iterator. cbn [next]. by rewrite Hthis.
  - done.
  - rewrite (drain_values h _ this' fuel 0 Hnew).
    + by rewrite drop_0, Hvals.
    + rewrite Hvals, length_app. lia.
Qed.

Lemma iterator_sees_later_values_witness :
  ∃ g σ',
    next (iterator 0) [mkSQLString 0 "a = $1" "a = ?" [VNumber 1]] =
      Some (Some (VString "a = ?"), g) ∧
    append 0 (Fragments [" AND b = "; ""]) [VString "bob"]
      [mkSQLString 0 "a = $1" "a = ?" [VNumber 1]] =
      Some (Return (RHandle 0), σ') ∧
    drain 3 g σ' = Some ([VNumber 1] ++ [VString "bob"]).
Proof.
  apply (iterator_sees_later_values 0 (Fragments [" AND b = "; ""])
           [VString "bob"] [mkSQLString 0 "a = $1" "a = ?" [VNumber 1]]
           (mkSQLString 0 "a = $1" "a = ?" [VNumber 1]) 3).
  - reflexivity.
  - exact I.
  - simpl. lia.
Defined.

(** ** Calls that are not of the interleaved form *)

(** X7: for plain fragments, a call keeps the number of [?] in [sql] equal
    to the number of bound values exactly when it passes one value fewer
    than fragments; any other number of values breaks the agreement. *)
Theorem agreement_kept_iff h first rest vals σ this :
  σ !! h = Some this →
  Forall (λ f, plain f = true) (first :: rest) →
  count_char "?" (sql this) = length (values this) →
  ∃ this',
    append h (Fragments (first :: rest)) vals σ =
      Some (Return (RHandle h), <[h := this']> σ) ∧
    (count_char "?" (sql this') = length (values this') ↔
     length (first :: rest) = S (length vals)).
Proof.
  intros Hthis [Hfirst Hrest]%Forall_cons Hagree.
  rewrite (append_fragments_cons _ _ _ _ _ _ Hthis).
  eexists. split; [reflexivity|]. cbn [sql values length].
  rewrite !count_char_append, count_sql_tail, length_app, Hagree by done.
  unfold plain in Hfirst.
  apply andb_prop in Hfirst as [[Hq%Nat.eqb_eq _]%andb_prop _].
  rewrite Hq. lia.
Qed.

Lemma agreement_kept_iff_witness :
  ∃ this',
    append 0 (Fragments ["users"]) [VNumber 1]
      [mkSQLString 0 "FROM " "FROM " []] =
      Some (Return (RHandle 0),
            <[0 := this']> [mkSQLString 0 "FROM " "FROM " []]) ∧
    (count_char "?" (sql this') = length (values this') ↔
     length ["users"] = S (length [VNumber 1])).
Proof.
  apply (agreement_kept_iff 0 "users" [] [VNumber 1]
           [mkSQLString 0 "FROM " "FROM " []]
           (mkSQLString 0 "FROM " "FROM " [])).
  - reflexivity.
  - repeat constructor.
  - reflexivity.
Defined.

(** X8: raw strings compose: two calls with raw strings leave the store
    as one call with their concatenation does, whatever values come with
    them, and the empty raw string changes nothing. *)
Theorem raw_strings_compose h s1 s2 vals1 vals2 σ this :
  σ !! h = Some this →
  (r ← append h (RawString s1) vals1 σ; append h (RawString s2) vals2 r.2) =
    append h (RawString (s1 +:+ s2)) (vals1 ++ vals2) σ ∧
  append h (RawString "") [] σ = Some (Return (RHandle h), σ).
Proof.
  intros Hthis.
  assert (h < length σ) as Hlt by by eapply lookup_lt_Some.
  split.
  - rewrite (append_lookup _ _ _ _ _ Hthis). cbn [mbind option_bind snd].
    rewrite (append_lookup _ _ _ _ _ (list_lookup_insert_eq _ _ _ Hlt)).
    rewrite (append_lookup _ _ _ _ _ Hthis).
    cbn [append_body]. rewrite !append_parts_cons.
    cbn [fst snd append_method text sql values text_tail sql_tail].
    rewrite list_insert_insert_eq.
    by rewrite !append_empty_r, !append_assoc, <- app_assoc.
  - rewrite (append_lookup _ _ _ _ _ Hthis).
    cbn [append_body]. rewrite append_parts_cons.
    cbn [fst snd text_tail sql_tail].
    rewrite !append_empty_r, app_nil_r, list_insert_id; [done|].
    by destruct this.
Qed.

Lemma raw_strings_compose_witness :
  (r ← append 0 (RawString "us") [VNull] [mkSQLString 0 "FROM " "FROM " []];
   append 0 (RawString "ers") [] r.2) =
    append 0 (RawString ("us" +:+ "ers")) ([VNull] ++ [])
      [mkSQLString 0 "FROM " "FROM " []] ∧
  append 0 (RawString "") [] [mkSQLString 0 "FROM " "FROM " []] =
    Some (Return (RHandle 0), [mkSQLString 0 "FROM " "FROM " []]).
Proof.
  apply (raw_strings_compose 0 "us" "ers" [VNull] []
           [mkSQLString 0 "FROM " "FROM " []]
           (mkSQLString 0 "FROM " "FROM " [])).
  reflexivity.
Defined.

(** ** The two renderings stay in step *)

Lemma in_sync_append first rest vals this :
  in_sync this →
  interleaved (first :: rest, vals) →
  in_sync
    {| append_method := append_method this;
       text := text this +:+ first +:+
               text_tail (length (values this) + 1) rest;
       sql := sql this +:+ first +:+ sql_tail rest;
       values := values this ++ vals |}.
Proof.
  intros (parts & Hlen & Hsql & Htext) Hint.
  unfold interleaved in Hint. cbn [fst snd length] in Hint.
  destruct parts as [|p0 ptail]; [done|].
  rewrite sql_extension_cons in Hsql. rewrite text_extension_cons in Htext.
  exists (glue (p0 :: ptail) (first :: rest)).
  cbn [text sql values]. split_and!.
  - rewrite length_glue, length_app by done. cbn [length] in *. lia.
  - rewrite Hsql. destruct ptail as [|q r].
    + cbn [glue]. rewrite sql_extension_cons. cbn [sql_tail].
      by rewrite append_empty_r, append_assoc.
    + change (glue (p0 :: q :: r) (first :: rest))
        with (p0 :: glue (q :: r) (first :: rest)).
      by rewrite sql_extension_cons, sql_tail_glue, !append_assoc.
  - rewrite Htext. destruct ptail as [|q r].
    + cbn [glue]. rewrite text_extension_cons. cbn [text_tail length] in *.
      replace (length (values this)) with 0 by lia.
      by rewrite append_empty_r, append_assoc.
    + change (glue (p0 :: q :: r) (first :: rest))
        with (p0 :: glue (q :: r) (first :: rest)).
      rewrite text_extension_cons, text_tail_glue, !append_assoc.
      cbn [length] in Hlen.
      by replace (length (values this) + 1) with (0 + 1 + S (length r)) by lia.
Qed.

Lemma appends_in_sync h bs σ this :
  σ !! h = Some this →
  in_sync this →
  Forall interleaved bs →
  ∃ σ' this',
    appends h bs σ = Some σ' ∧ σ' !! h = Some this' ∧ in_sync this'.
Proof.
  intros Hthis Hok Hint. revert σ this Hthis Hok.
  induction Hint as [|[[|first rest] vals] bs Hb _ IH]; intros σ this Hthis Hok.
  - by eexists _, _.
  - done.
  - cbn [appends]. rewrite (append_fragments_cons _ _ _ _ _ _ Hthis).
    eapply IH; [|by apply in_sync_append].
    apply list_lookup_insert_eq. by eapply lookup_lt_Some.
Qed.

(** X9: whatever the fragments contain, after [SQL] and any number of
    calls of the interleaved form there is one list of fragments, one
    longer than the bound values, of which [sql] is the rendering with [?]
    and [text] the rendering with [$1], [$2], ... in this order. *)
Theorem renderings_in_sync b bs σ :
  Forall interleaved (b :: bs) →
  ∃ σ0 σ' this,
    SQL (Fragments b.1) b.2 σ = (Return (RHandle (length σ)), σ0) ∧
    appends (length σ) bs σ0 = Some σ' ∧
    σ' !! length σ = Some this ∧
    in_sync this.
Proof.
  intros [Hb Hint]%Forall_cons.
  destruct b as [[|first rest] vals]; [done|]. cbn [fst snd].
  unfold SQL. cbn [append_body]. rewrite append_parts_cons.
  cbn [append_method text sql values].
  set (cell := mkSQLString _ _ _ _).
  assert (in_sync cell) as Hcell.
  { exists (first :: rest). unfold cell. cbn [sql text values length].
    rewrite sql_extension_cons, text_extension_cons.
    unfold interleaved in Hb. cbn [fst snd length] in Hb.
    split_and!; [by rewrite app_nil_l|done|done]. }
  destruct (appends_in_sync (length σ) bs (σ ++ [cell]) cell)
    as (σ' & this' & Hrun & Hl & Hok'); [|done|done|].
  { by apply list_lookup_middle. }
  by eexists _, σ', this'.
Qed.

Lemma renderings_in_sync_witness :
  ∃ σ0 σ' this,
    SQL (Fragments ["SELECT '?' = "; ""]) [VString "a"] [] =
      (Return (RHandle 0), σ0) ∧
    appends 0 [([" LIMIT "; "0"], [VNumber 1])] σ0 = Some σ' ∧
    σ' !! 0 = Some this ∧
    in_sync this.
Proof.
  apply (renderings_in_sync (["SELECT '?' = "; ""], [VString "a"])
           [([" LIMIT "; "0"], [VNumber 1])] []).
  repeat constructor.
Defined.

(** ** Bound values stay out of the renderings *)

Lemma appends_same_rendering h bs bs' σ1 σ2 s1 s2 :
  Forall2 same_shape bs bs' →
  σ1 !! h = Some s1 → σ2 !! h = Some s2 →
  same_rendering s1 s2 →
  match appends h bs σ1, appends h bs' σ2 with
  | Some σ1', Some σ2' =>
      ∃ s1' s2',
        σ1' !! h = Some s1' ∧ σ2' !! h = Some s2' ∧ same_rendering s1' s2'
  | None, None => True
  | _, _ => False
  end.
Proof.
  intros Hshape. revert σ1 σ2 s1 s2.
  induction Hshape as [|[parts vals] [parts' vals'] bs bs' [Hp Hl] _ IH];
    intros σ1 σ2 s1 s2 H1 H2 Hsame.
  - cbn [appends]. by eexists _, _.
  - cbn [fst snd] in Hp, Hl. subst parts'. cbn [appends].
    destruct parts as [|first rest].
    + rewrite (append_lookup _ _ _ _ _ H1), (append_lookup _ _ _ _ _ H2).
      cbn [append_body]. by rewrite !append_parts_nil.
    + rewrite (append_fragments_cons _ _ _ _ _ _ H1).
      rewrite (append_fragments_cons _ _ _ _ _ _ H2).
      eapply IH.
      * apply list_lookup_insert_eq. by eapply lookup_lt_Some.
      * apply list_lookup_insert_eq. by eapply lookup_lt_Some.
      * destruct Hsame as (Hsql & Htext & Hlen).
        unfold same_rendering. cbn [sql text values].
        rewrite !length_app, Hsql, Htext, Hlen, Hl. done.
Qed.

(** X10: the renderings depend on the fragments and on how many values
    were bound, never on the values: two runs of calls that differ only in
    the values they bind both complete or both throw, and leave the same
    [sql] and the same [text]. *)
Theorem values_stay_out_of_renderings h bs bs' σ this :
  Forall2 same_shape bs bs' →
  σ !! h = Some this →
  match appends h bs σ, appends h bs' σ with
  | Some σ1, Some σ2 =>
      ∃ s1 s2,
        σ1 !! h = Some s1 ∧ σ2 !! h = Some s2 ∧
        sql s1 = sql s2 ∧ text s1 = text s2
  | None, None => True
  | _, _ => False
  end.
Proof.
  intros Hshape Hthis.
  pose proof (appends_same_rendering h bs bs' σ σ this this Hshape Hthis Hthis)
    as Hrun.
  destruct (appends h bs σ) as [σ1|], (appends h bs' σ) as [σ2|];
    try (by apply Hrun).
  destruct Hrun as (s1 & s2 & H1 & H2 & Hsql & Htext & _); [done|].
  by exists s1, s2.
Qed.

Lemma values_stay_out_of_renderings_witness :
  match
    appends 0 [([" WHERE name = "; ""], [VString "bob"])]
      [mkSQLString 0 "SELECT *" "SELECT *" []],
    appends 0 [([" WHERE name = "; ""], [VString "' OR 1 = 1; --"])]
      [mkSQLString 0 "SELECT *" "SELECT *" []]
  with
  | Some σ1, Some σ2 =>
      ∃ s1 s2,
        σ1 !! 0 = Some s1 ∧ σ2 !! 0 = Some s2 ∧
        sql s1 = sql s2 ∧ text s1 = text s2
  | None, None => True
  | _, _ => False
  end.
Proof.
  apply (values_stay_out_of_renderings 0
           [([" WHERE name = "; ""], [VString "bob"])]
           [([" WHERE name = "; ""], [VString "' OR 1 = 1; --"])]
           [mkSQLString 0 "SELECT *" "SELECT *" []]
           (mkSQLString 0 "SELECT *" "SELECT *" [])).
  - repeat constructor.
  - reflexivity.
Defined.

(** ** The coverage badge *)

Lemma less_than_mono percentage j k :
  (j ≤ k)%Z → less_than percentage j = true → less_than percentage k = true.
Proof.
  destruct percentage as [|z| |]; cbn [less_than]; try done.
  intros Hjk Hj%Z.ltb_lt. apply Z.ltb_lt. lia.
Qed.

(** X11: the colour of the coverage badge is never the initial [gray];
    it is the green of the last branch exactly when [percentage < 90] is
    false, which is the case of 90 and more and also of [NaN]; and it is
    the red of the first branch exactly when [percentage < 50]. *)
Theorem color_bands percentage :
  color percentage ≠ "gray" ∧
  (color percentage = "#16B13D" ↔ less_than percentage 90 = false) ∧
  (color percentage = "#B12B1D" ↔ less_than percentage 50 = true).
Proof.
  unfold color.
  destruct (less_than percentage 50) eqn:H50.
  { rewrite (less_than_mono percentage 50 90) by done. by split_and!. }
  destruct (less_than percentage 70) eqn:H70.
  { rewrite (less_than_mono percentage 70 90) by done. by split_and!. }
  destruct (less_than percentage 80) eqn:H80.
  { rewrite (less_than_mono percentage 80 90) by done. by split_and!. }
  destruct (less_than percentage 90) eqn:H90; by split_and!.
Qed.

(** ** Nothing is ever taken back *)

Lemma string_prefix_refl s : string_prefix s s.
Proof. exists "". by rewrite append_empty_r. Qed.

Lemma append_body_grows self tmpl vals this :
  let this' := (append_body self tmpl vals this).2 in
  string_prefix (sql this) (sql this') ∧
  string_prefix (text this) (text this') ∧
  values this `prefix_of` values this'.
Proof.
  destruct tmpl as [| |s|[|first rest]]; cbn [append_body];
    rewrite ?append_parts_cons, ?append_parts_nil; cbn [snd sql text values];
    split_and!; try apply string_prefix_refl; try apply prefix_append;
    try done; by apply prefix_app_r.
Qed.

(** X12: no call of a handle, whatever its argument and whether it
    returns or throws, removes or rewrites anything: for every statement of
    the store the former [sql] and [text] are the beginning of the new
    ones and the former values the beginning of the new array. *)
Theorem no_call_shrinks h tmpl vals σ c σ' k this :
  append h tmpl vals σ = Some (c, σ') →
  σ !! k = Some this →
  ∃ this',
    σ' !! k = Some this' ∧
    string_prefix (sql this) (sql this') ∧
    string_prefix (text this) (text this') ∧
    values this `prefix_of` values this'.
Proof.
  intros Hcall Hk. destruct (decide (k = h)) as [->|Hne].
  - rewrite (append_lookup _ _ _ _ _ Hk) in Hcall. injection Hcall as _ <-.
    eexists. split; [|apply append_body_grows].
    apply list_lookup_insert_eq. by eapply lookup_lt_Some.
  - unfold append in Hcall. destruct (σ !! h) as [cell|]; [|done].
    cbn [mbind option_bind] in Hcall.
    destruct (append_body h tmpl vals cell) as [c' cell'].
    injection Hcall as _ <-. exists this.
    rewrite list_lookup_insert_ne by done.
    split_and!; [done|apply string_prefix_refl..|done].
Qed.

Lemma no_call_shrinks_witness :
  ∃ this',
    [mkSQLString 0 "a = $1 AND b = $2" "a = ? AND b = ?"
       [VNumber 1; VString "bob"]] !! 0 = Some this' ∧
    string_prefix "a = ?" (sql this') ∧
    string_prefix "a = $1" (text this') ∧
    [VNumber 1] `prefix_of` values this'.
Proof.
  apply (no_call_shrinks 0 (Fragments [" AND b = "; ""]) [VString "bob"]
           [mkSQLString 0 "a = $1" "a = ?" [VNumber 1]]
           (Return (RHandle 0))
           [mkSQLString 0 "a = $1 AND b = $2" "a = ? AND b = ?"
              [VNumber 1; VString "bob"]]
           0 (mkSQLString 0 "a = $1" "a = ?" [VNumber 1]));
    reflexivity.
Defined.

(** ** From construction to the driver *)

Lemma drain_iterator h σ this fuel :
  σ !! h = Some this →
  length (values this) + 2 ≤ fuel →
  drain fuel (iterator h) σ = Some (VString (sql this) :: values this).
Proof.
  intros Hthis Hfuel. destruct fuel as [|fuel]; [lia|].
  unfold iterator. cbn [drain next]. rewrite Hthis. cbn [mbind option_bind].
  rewrite (drain_values h σ this) by (done || lia).
  by rewrite drop_0.
Qed.

Lemma SQL_fragments first rest vals σ :
  SQL (Fragments (first :: rest)) vals σ =
  (Return (RHandle (length σ)),
   σ ++ [ {| append_method := length σ;
             text := first +:+ text_tail 1 rest;
             sql := join "?" (first :: rest);
             values := vals |} ]).
Proof.
  unfold SQL. cbn [append_body]. rewrite append_parts_cons.
  by rewrite join_cons.
Qed.

(** X13: spreading a statement just built from at least one fragment
    gives the fragments joined by [?] and then the values passed, in
    their order, as [db.all(...SQL`...`)] needs them; the iteration
    ends within the number of values plus two calls of [next]. *)
Theorem SQL_then_spread parts vals σ fuel :
  parts ≠ [] →
  length vals + 2 ≤ fuel →
  drain fuel (iterator (length σ)) (SQL (Fragments parts) vals σ).2 =
  Some (VString (join "?" parts) :: vals).
Proof.
  intros Hparts Hfuel. destruct parts as [|first rest]; [done|].
  rewrite SQL_fragments. cbn [snd].
  by rewrite (drain_iterator _ _ _ fuel (list_lookup_middle _ _ _ _ eq_refl)).
Qed.

Lemma SQL_then_spread_witness :
  drain 4 (iterator 0)
    (SQL (Fragments ["id = "; " AND name = "; ""])
       [VNumber 1; VString "bob"] []).2 =
  Some (VString (join "?" ["id = "; " AND name = "; ""])
        :: [VNumber 1; VString "bob"]).
Proof.
  apply (SQL_then_spread ["id = "; " AND name = "; ""]
           [VNumber 1; VString "bob"] [] 4).
  - done.
  - simpl. lia.
Defined.

(** X14: calling a statement just built from at least one fragment with
    no argument gives [sql] and [query] as the fragments joined by [?] and
    [text] as the fragments joined by [$1], [$2], ...; calling it with
    [SEQUELIZE_USE_BIND] gives that [text] as [query]; both give the very
    array that holds the values passed, and neither changes the store. *)
Theorem SQL_then_finalize parts vals σ :
  parts ≠ [] →
  let h := length σ in
  let σ1 := (SQL (Fragments parts) vals σ).2 in
  append h Undefined [] σ1 =
    Some (Return (RParams (join "?" parts) (text_extension 0 parts)
                    (join "?" parts) (ValuesOf h)), σ1) ∧
  append h SEQUELIZE_USE_BIND [] σ1 =
    Some (Return (RBind (text_extension 0 parts) (ValuesOf h)), σ1) ∧
  read_array σ1 (ValuesOf h) = Some vals.
Proof.
  intros Hparts h σ1. subst h σ1. destruct parts as [|first rest]; [done|].
  rewrite SQL_fragments, text_extension_cons. cbn [snd].
  pose proof (list_lookup_middle σ []
    (mkSQLString (length σ) (first +:+ text_tail 1 rest)
       (join "?" (first :: rest)) vals) (length σ) eq_refl) as Hcell.
  rewrite !(append_lookup _ _ _ _ _ Hcell). cbn [append_body fst snd].
  rewrite (list_insert_id _ _ _ Hcell). split_and!; [done..|].
  unfold read_array. by rewrite Hcell.
Qed.

Lemma SQL_then_finalize_witness :
  let h := length (@nil SQLString) in
  let σ1 := (SQL (Fragments ["id = "; ""]) [VNumber 1] []).2 in
  append h Undefined [] σ1 =
    Some (Return (RParams (join "?" ["id = "; ""])
                    (text_extension 0 ["id = "; ""])
                    (join "?" ["id = "; ""]) (ValuesOf h)), σ1) ∧
  append h SEQUELIZE_USE_BIND [] σ1 =
    Some (Return (RBind (text_extension 0 ["id = "; ""]) (ValuesOf h)), σ1) ∧
  read_array σ1 (ValuesOf h) = Some [VNumber 1].
Proof.
  apply (SQL_then_finalize ["id = "; ""] [VNumber 1] []).
  done.
Defined.
